(** * Selective build: the operator whitelist of [op_whitelist.h]

    A shallow embedding of the four [constexpr] checks of
    [aten/src/ATen/core/op_registration/op_whitelist.h] (namespace
    [c10::impl]) and the properties the specification states about them.

    - [size_t] is a 64-bit unsigned integer, kept as an [N] below [2^64]
      with the wrap-around of every arithmetic step written out.
    - a [string_view] is the list of its bytes; its positions are [size_t].
    - an evaluation either returns, throws [std::out_of_range] (from
      [substr]) or, for the loop, runs out of the fuel it was given; the
      failure of an [assert] is an outcome of its own, which no check
      reaches (see [op_whitelist_check]). *)

From Stdlib Require Import NArith ZArith List Ascii String Bool Lia.
Import ListNotations.

Local Open Scope string_scope.
Local Open Scope list_scope.
Local Open Scope N_scope.

(** ** Outcomes of an evaluation *)

Inductive outcome (A : Type) : Type :=
| Returns (a : A)          (* normal return *)
| AssertionFailure         (* [assert(e)] with [e] false *)
| OutOfRange               (* [throw std::out_of_range] *)
| OutOfFuel.               (* the loop was not given enough iterations *)

Arguments Returns {A} a.
Arguments AssertionFailure {A}.
Arguments OutOfRange {A}.
Arguments OutOfFuel {A}.

Definition bind {A B : Type} (m : outcome A) (k : A -> outcome B) : outcome B :=
  match m with
  | Returns a => k a
  | AssertionFailure => AssertionFailure
  | OutOfRange => OutOfRange
  | OutOfFuel => OutOfFuel
  end.

Notation "x <- m ;; k" := (bind m (fun x => k))
  (at level 61, m at next level, right associativity).

(** ** [size_t] *)

Definition size_t : Type := N.
Bind Scope N_scope with size_t.

Module SizeT.

Definition modulus : N := 2 ^ 64.

(** Conversion of a signed constant, as in [size_t next = -1]. *)
Definition of_Z (z : Z) : size_t := Z.to_N (z mod Z.of_N modulus).

(** [a - b] on [size_t]. *)
Definition sub (a b : size_t) : size_t := (a + modulus - b) mod modulus.

(** [a++] on [size_t]. *)
Definition incr (a : size_t) : size_t := (a + 1) mod modulus.

End SizeT.

(** ** [c10::string_view] *)

Module StringView.

Definition string_view := list ascii.

(** [string_view::npos], which is [size_type(-1)]. *)
Definition npos : size_t := 18446744073709551615.

Definition size (s : string_view) : size_t := N.of_nat (List.length s).

(** A view's size is itself a [size_t]: the class keeps it in a field of
    that type.  Lists longer than that are no views. *)
Definition fits (s : string_view) : Prop := size s <= npos.

(** [v] is a prefix of [s]. *)
Fixpoint starts_with (v s : string_view) : bool :=
  match v, s with
  | [], _ => true
  | _ :: _, [] => false
  | a :: v', b :: s' => Ascii.eqb a b && starts_with v' s'
  end.

(** The scan of [find]: [s] is what is left of the view from position
    [cur] on. *)
Fixpoint find_from (v s : string_view) (cur : size_t) : size_t :=
  if starts_with v s then cur
  else match s with
       | [] => npos
       | _ :: s' => find_from v s' (cur + 1)
       end.

(** Modelled from the spec: [c10/util/string_view.h] is not under src/.
    [s.find(v, pos)] is the lowest position [>= pos] at which [v] occurs in
    [s], and [npos] when there is none (the spec's "first [(]", "first [.]",
    "contains the namespace separator"). *)
Definition find (s v : string_view) (pos : size_t) : size_t :=
  if pos <=? size s then find_from v (skipn (N.to_nat pos) s) pos else npos.

(** [s.find(ch, pos)] is [find] of the one-character view. *)
Definition find_char (s : string_view) (ch : ascii) (pos : size_t) : size_t :=
  find s [ch] pos.

(** Modelled from the spec: [c10/util/string_view.h] is not under src/.
    [s.substr(pos, count)] is the view of the [min(count, size - pos)]
    characters from [pos] on ("the substring up to (excluding) ...", "if no
    [(] exists, uses the full string"); it throws when [pos > size]. *)
Definition substr (s : string_view) (pos count : size_t) : outcome string_view :=
  if size s <? pos then OutOfRange
  else Returns (firstn (N.to_nat (N.min count (size s - pos)))
                       (skipn (N.to_nat pos) s)).

(** Modelled from the spec: [c10/util/string_view.h] is not under src/.
    [a.compare(b)] orders the two views byte by byte, then by length; it is
    zero for byte-for-byte equal views only. *)
Fixpoint compare (a b : string_view) : Z :=
  match a, b with
  | [], [] => 0%Z
  | [], _ :: _ => (-1)%Z
  | _ :: _, [] => 1%Z
  | x :: a', y :: b' =>
      match (N_of_ascii x ?= N_of_ascii y)%N with
      | Lt => (-1)%Z
      | Gt => 1%Z
      | Eq => compare a' b'
      end
  end.

End StringView.

Export StringView.

(** String literals denote the view of their characters. *)
Coercion list_ascii_of_string : string >-> list.

(** ** The build configuration *)

Record BuildConfig : Type := {
  (** [C10_STRINGIZE(TORCH_OPERATOR_WHITELIST)], [None] when the macro is
      not defined. *)
  TORCH_OPERATOR_WHITELIST : option string_view;
  (** [defined(TORCH_FORCE_SCHEMA_REGISTRATION)] *)
  TORCH_FORCE_SCHEMA_REGISTRATION : bool;
  (** [defined(C10_MOBILE)] *)
  C10_MOBILE : bool
}.

(** ** [OperatorNameView] and [DispatchKey] *)

Record OperatorNameView : Type := {
  name : string_view;
  overload_name : string_view
}.

(** Modelled from the spec: [OperatorNameView::parse] (operator_name.h) is
    not under src/.  It strips the overload suffix, the text from the first
    [.] onward, and leaves [namespace::base_name] as the name; the overload
    name is the portion after that [.]. *)
Definition OperatorNameView_parse (full_name : string_view)
  : outcome OperatorNameView :=
  let i := find_char full_name "." 0 in
  if i =? npos then
    Returns {| name := full_name; overload_name := [] |}
  else
    n <- substr full_name 0 i ;;
    o <- substr full_name (SizeT.incr i) npos ;;
    Returns {| name := n; overload_name := o |}.

(** Modelled from the spec: the enumeration [c10::DispatchKey]
    (c10/core/DispatchKey.h) is not under src/.  The keys the header and the
    spec name are constructors of their own; every further enumerator is
    [OtherKey] of its tag. *)
Inductive DispatchKey : Type :=
| CPU
| CUDA
| Vulkan
| QuantizedCPU
| BackendSelect
| CatchAll
| OtherKey (tag : N).

Definition DispatchKey_eqb (a b : DispatchKey) : bool :=
  match a, b with
  | CPU, CPU => true
  | CUDA, CUDA => true
  | Vulkan, Vulkan => true
  | QuantizedCPU, QuantizedCPU => true
  | BackendSelect, BackendSelect => true
  | CatchAll, CatchAll => true
  | OtherKey m, OtherKey n => m =? n
  | _, _ => false
  end.

(** ** The checks of [c10::impl] *)

(** The [for] loop of [op_whitelist_contains], entered at position [cur]:
<<
    for (size_t cur = 0; cur <= whitelist.size(); cur = next) {
      next = whitelist.find(';', cur);
      if (next != string_view::npos) {
        if (whitelist.substr(cur, next - cur).compare(item) == 0) return true;
        next++;
      } else {
        if (whitelist.substr(cur).compare(item) == 0) return true;
        break;
      }
    }
    return false;
>>
    [next] is declared before the loop, as [size_t next = -1], and every
    iteration assigns it before reading it. *)
Fixpoint whitelist_loop (fuel : nat) (whitelist item : string_view)
  (cur : size_t) : outcome bool :=
  match fuel with
  | O => OutOfFuel
  | S fuel' =>
      if cur <=? size whitelist then
        let next := find_char whitelist ";" cur in
        if negb (next =? npos) then
          seg <- substr whitelist cur (SizeT.sub next cur) ;;
          if (compare seg item =? 0)%Z then Returns true
          else
            let next := SizeT.incr next in
            whitelist_loop fuel' whitelist item next
        else
          seg <- substr whitelist cur npos ;;
          if (compare seg item =? 0)%Z then Returns true
          else Returns false
      else Returns false
  end.

(** [op_whitelist_contains(whitelist, item)]; one iteration per position of
    the whitelist and one more is all the loop can use. *)
Definition op_whitelist_contains (whitelist item : string_view) : outcome bool :=
  whitelist_loop (S (List.length whitelist)) whitelist item 0.

(** [op_whitelist_check(op_name)].  Line 55,
<<
    assert(op_name.find("::").compare(string_view::npos) != 0);
>>
    calls [.compare] on the [size_t] that [find] returns, which has no such
    member: the function compiles only where [assert] expands to nothing,
    and there the line does nothing.  The check is what follows it. *)
Definition op_whitelist_check (cfg : BuildConfig) (op_name : string_view)
  : outcome bool :=
  match TORCH_OPERATOR_WHITELIST cfg with
  | None => Returns true
  | Some whitelist =>
      view <- OperatorNameView_parse op_name ;;
      op_whitelist_contains whitelist (name view)
  end.

(** [schema_whitelist_check(schema)] *)
Definition schema_whitelist_check (cfg : BuildConfig) (schema : string_view)
  : outcome bool :=
  if TORCH_FORCE_SCHEMA_REGISTRATION cfg then Returns true
  else
    op_name <- substr schema 0 (find schema "(" 0) ;;
    op_whitelist_check cfg op_name.

(** [dispatch_key_whitelist_check(k)] *)
Definition dispatch_key_whitelist_check (cfg : BuildConfig) (k : DispatchKey)
  : bool :=
  if C10_MOBILE cfg then
    DispatchKey_eqb k CPU || DispatchKey_eqb k Vulkan
    || DispatchKey_eqb k QuantizedCPU || DispatchKey_eqb k BackendSelect
    || DispatchKey_eqb k CatchAll
  else true.

(** ** What the specification speaks of *)

(** The pieces of [s] between the occurrences of [d]; a leading, trailing or
    doubled [d] gives an empty piece. *)
Fixpoint split_on (d : ascii) (s : string_view) : list string_view :=
  match s with
  | [] => [[]]
  | c :: s' =>
      if Ascii.eqb c d then [] :: split_on d s'
      else match split_on d s' with
           | seg :: rest => (c :: seg) :: rest
           | [] => [[c]]
           end
  end.

(** The [;]-separated segments of a delimiter-joined list. *)
Definition segments (L : string_view) : list string_view := split_on ";" L.

(** [v] occurs somewhere in [s]. *)
Definition occurs_in (v s : string_view) : Prop :=
  exists a b, s = a ++ v ++ b.

(** A well-formed qualified operator name has the namespace separator. *)
Definition well_formed (op_name : string_view) : Prop :=
  occurs_in "::" op_name.

(** A build restricted to the operators of [whitelist]. *)
Definition restricted (whitelist : string_view) : BuildConfig :=
  {| TORCH_OPERATOR_WHITELIST := Some whitelist;
     TORCH_FORCE_SCHEMA_REGISTRATION := false;
     C10_MOBILE := false |}.

(** Whether [item] is one of the pieces [l]. *)
Definition among (l : list string_view) (item : string_view) : bool :=
  existsb (fun seg => (compare seg item =? 0)%Z) l.

(** The pieces put together again, [d] between them. *)
Fixpoint join_with (d : ascii) (l : list string_view) : string_view :=
  match l with
  | [] => []
  | [seg] => seg
  | seg :: rest => seg ++ d :: join_with d rest
  end.

(** The text of [s] before its first [c], all of [s] when it has none. *)
Fixpoint before_first (c : ascii) (s : string_view) : string_view :=
  match s with
  | [] => []
  | x :: s' => if Ascii.eqb x c then [] else x :: before_first c s'
  end.

(** A build with no operator whitelist, and the two other flags off. *)
Definition unrestricted : BuildConfig :=
  {| TORCH_OPERATOR_WHITELIST := None;
     TORCH_FORCE_SCHEMA_REGISTRATION := false;
     C10_MOBILE := false |}.

(** The dispatch keys of the mobile profile. *)
Definition mobile_keys : list DispatchKey :=
  [CPU; Vulkan; QuantizedCPU; BackendSelect; CatchAll].

(** The mobile build. *)
Definition mobile : BuildConfig :=
  {| TORCH_OPERATOR_WHITELIST := None;
     TORCH_FORCE_SCHEMA_REGISTRATION := false;
     C10_MOBILE := true |}.

(** A build whose operator whitelist is defined and empty. *)
Definition empty_whitelist : BuildConfig := restricted "".

(** The iterations the loop makes over the pieces [l]: one for each piece
    up to and including the first that equals [item], one for each piece
    when none does. *)
Fixpoint iterations (l : list string_view) (item : string_view) : nat :=
  match l with
  | [] => O
  | seg :: rest =>
      if (compare seg item =? 0)%Z then 1%nat else S (iterations rest item)
  end.

(** ** Facts about [size_t] arithmetic *)

Lemma modulus_npos : SizeT.modulus = npos + 1.
Proof. reflexivity. Qed.

Lemma npos_minus_one : SizeT.of_Z (-1) = npos.
Proof. reflexivity. Qed.

Lemma sub_no_wrap (a b : size_t) :
  b <= a -> a <= npos -> SizeT.sub a b = a - b.
Proof.
  intros Hba Ha. unfold SizeT.sub. rewrite modulus_npos.
  replace (a + (npos + 1) - b) with ((a - b) + 1 * (npos + 1)) by lia.
  rewrite N.Div0.mod_add. apply N.mod_small. lia.
Qed.

Lemma incr_no_wrap (a : size_t) : a < npos -> SizeT.incr a = a + 1.
Proof.
  intros Ha. unfold SizeT.incr. rewrite modulus_npos.
  apply N.mod_small. lia.
Qed.

(** ** Facts about views *)

Lemma size_app (a b : string_view) : size (a ++ b) = size a + size b.
Proof. unfold size. rewrite length_app. lia. Qed.

Lemma size_cons (c : ascii) (s : string_view) : size (c :: s) = size s + 1.
Proof. unfold size. simpl List.length. lia. Qed.

Lemma skipn_size_app (a b : string_view) :
  skipn (N.to_nat (size a)) (a ++ b) = b.
Proof.
  unfold size. rewrite Nat2N.id.
  rewrite skipn_app, skipn_all, Nat.sub_diag. reflexivity.
Qed.

Lemma firstn_size_app (a b : string_view) :
  firstn (N.to_nat (size a)) (a ++ b) = a.
Proof.
  unfold size. rewrite Nat2N.id.
  rewrite firstn_app, firstn_all, Nat.sub_diag. simpl. apply app_nil_r.
Qed.

Lemma compare_zero_iff (a b : string_view) :
  compare a b = 0%Z <-> a = b.
Proof.
  revert b. induction a as [| x a IH]; intros [| y b]; simpl;
    try (split; [discriminate | discriminate]); try tauto.
  destruct (N.compare_spec (N_of_ascii x) (N_of_ascii y)) as [E | L | G].
  - assert (x = y) as ->.
    { rewrite <- (ascii_N_embedding x), <- (ascii_N_embedding y).
      now rewrite E. }
    rewrite IH. split; [now intros -> | now intros [= ->]].
  - split; [discriminate | intros [= -> _]; lia].
  - split; [discriminate | intros [= -> _]; lia].
Qed.

Lemma compare_eqb (a b : string_view) :
  (compare a b =? 0)%Z = true <-> a = b.
Proof. rewrite Z.eqb_eq. apply compare_zero_iff. Qed.

Lemma starts_with_iff (v s : string_view) :
  starts_with v s = true <-> exists b, s = v ++ b.
Proof.
  revert s. induction v as [| a v IH]; intros s; simpl.
  - split; [intros _; now exists s | reflexivity].
  - destruct s as [| b s].
    + split; [discriminate | intros [t Ht]; discriminate].
    + rewrite andb_true_iff, Ascii.eqb_eq, IH. split.
      * intros [-> [t ->]]. now exists t.
      * intros [t [= -> ->]]. split; [reflexivity | now exists t].
Qed.

(** Substring with the position in range. *)
Lemma substr_in_range (s : string_view) (pos count : size_t) :
  pos <= size s ->
  substr s pos count =
    Returns (firstn (N.to_nat (N.min count (size s - pos)))
                    (skipn (N.to_nat pos) s)).
Proof.
  intros H. unfold substr.
  destruct (N.ltb_spec (size s) pos); [lia | reflexivity].
Qed.

Lemma substr_middle (a b : string_view) (count : size_t) :
  substr (a ++ b) (size a) count =
    Returns (firstn (N.to_nat (N.min count (size b))) b).
Proof.
  rewrite substr_in_range by (rewrite size_app; lia).
  rewrite skipn_size_app, size_app.
  now replace (size a + size b - size a) with (size b) by lia.
Qed.

Lemma substr_segment (a seg b : string_view) :
  substr (a ++ seg ++ b) (size a) (size seg) = Returns seg.
Proof.
  rewrite substr_middle, size_app.
  replace (N.min (size seg) (size seg + size b)) with (size seg) by lia.
  now rewrite firstn_size_app.
Qed.

Lemma substr_rest (a b : string_view) :
  fits (a ++ b) -> substr (a ++ b) (size a) npos = Returns b.
Proof.
  unfold fits. rewrite size_app. intros H. rewrite substr_middle.
  replace (N.min npos (size b)) with (size b) by lia.
  rewrite <- (app_nil_r b) at 2. now rewrite firstn_size_app.
Qed.

(** ** Facts about [find] *)

(** Either [c] is not in [s], or [s] splits at its first [c]. *)
Lemma first_occurrence (c : ascii) (s : string_view) :
  ~ In c s \/ exists pre post, s = pre ++ c :: post /\ ~ In c pre.
Proof.
  induction s as [| x s IH].
  - left. intros [].
  - destruct (Ascii.eqb_spec x c) as [-> | Hxc].
    + right. exists [], s. split; [reflexivity | intros []].
    + destruct IH as [Hno | (pre & post & -> & Hpre)].
      * left. intros [H | H]; [now apply Hxc | now apply Hno].
      * right. exists (x :: pre), post. split; [reflexivity |].
        intros [H | H]; [now apply Hxc | now apply Hpre].
Qed.

Lemma find_from_char_absent (c : ascii) (s : string_view) (cur : size_t) :
  ~ In c s -> find_from [c] s cur = npos.
Proof.
  revert cur. induction s as [| x s IH]; intros cur Hno; simpl.
  - reflexivity.
  - destruct (Ascii.eqb_spec c x) as [-> | Hcx].
    + exfalso. apply Hno. now left.
    + simpl. apply IH. intros H. apply Hno. now right.
Qed.

Lemma find_from_char_first (c : ascii) (pre post : string_view) (cur : size_t) :
  ~ In c pre -> find_from [c] (pre ++ c :: post) cur = cur + size pre.
Proof.
  revert cur. induction pre as [| x pre IH]; intros cur Hno; simpl.
  - rewrite Ascii.eqb_refl. simpl. unfold size. simpl. lia.
  - destruct (Ascii.eqb_spec c x) as [-> | Hcx].
    + exfalso. apply Hno. now left.
    + simpl. rewrite IH by (intros H; apply Hno; now right).
      rewrite size_cons. lia.
Qed.

Lemma find_char_absent (a b : string_view) (c : ascii) :
  ~ In c b -> find_char (a ++ b) c (size a) = npos.
Proof.
  intros Hno. unfold find_char, find.
  destruct (N.leb_spec (size a) (size (a ++ b))); [| reflexivity].
  rewrite skipn_size_app. now apply find_from_char_absent.
Qed.

Lemma find_char_first (a pre post : string_view) (c : ascii) :
  ~ In c pre ->
  find_char (a ++ pre ++ c :: post) c (size a) = size a + size pre.
Proof.
  intros Hno. unfold find_char, find.
  destruct (N.leb_spec (size a) (size (a ++ pre ++ c :: post))) as [_ | H].
  - rewrite skipn_size_app. now apply find_from_char_first.
  - rewrite size_app in H. lia.
Qed.

(** ** Facts about [split_on] *)

Lemma split_on_absent (d : ascii) (s : string_view) :
  ~ In d s -> split_on d s = [s].
Proof.
  induction s as [| x s IH]; intros Hno; simpl.
  - reflexivity.
  - destruct (Ascii.eqb_spec x d) as [-> | Hxd].
    + exfalso. apply Hno. now left.
    + rewrite IH by (intros H; apply Hno; now right). reflexivity.
Qed.

Lemma split_on_first (d : ascii) (pre post : string_view) :
  ~ In d pre -> split_on d (pre ++ d :: post) = pre :: split_on d post.
Proof.
  induction pre as [| x pre IH]; intros Hno; simpl.
  - now rewrite Ascii.eqb_refl.
  - destruct (Ascii.eqb_spec x d) as [-> | Hxd].
    + exfalso. apply Hno. now left.
    + rewrite IH by (intros H; apply Hno; now right). reflexivity.
Qed.

(** Joining the pieces with [d] gives the string back, and no piece holds
    a [d]: [split_on] is the splitting the specification means. *)

Lemma split_on_nonempty (d : ascii) (s : string_view) : split_on d s <> [].
Proof.
  destruct s as [| x s]; simpl; [discriminate |].
  destruct (Ascii.eqb x d); [discriminate |].
  destruct (split_on d s); discriminate.
Qed.

Lemma join_split_on (d : ascii) (s : string_view) :
  join_with d (split_on d s) = s.
Proof.
  induction s as [| x s IH]; simpl; [reflexivity |].
  destruct (Ascii.eqb_spec x d) as [-> | Hxd].
  - pose proof (split_on_nonempty d s) as Hne.
    simpl. destruct (split_on d s) as [| seg rest]; [congruence |].
    simpl. f_equal. exact IH.
  - pose proof (split_on_nonempty d s) as Hne.
    destruct (split_on d s) as [| seg rest]; [congruence |].
    simpl in *. destruct rest as [| seg' rest]; now rewrite <- IH.
Qed.

Lemma split_on_pieces (d : ascii) (s : string_view) :
  Forall (fun seg => ~ In d seg) (split_on d s).
Proof.
  induction s as [| x s IH]; simpl.
  - constructor; [intros [] | constructor].
  - destruct (Ascii.eqb_spec x d) as [-> | Hxd].
    + constructor; [intros [] | exact IH].
    + destruct (split_on d s) as [| seg rest].
      * constructor; [| constructor]. intros [H | []]. now apply Hxd.
      * inversion IH as [| ? ? Hseg Hrest]; subst.
        constructor; [| exact Hrest].
        intros [H | H]; [now apply Hxd | now apply Hseg].
Qed.

Example segments_examples :
  segments "a;bc;d" = ["a" : string_view; "bc" : string_view; "d" : string_view]
  /\ segments "" = [[]]
  /\ segments ";;" = [[]; []; []]
  /\ segments ";a;" = [[]; "a" : string_view; []].
Proof. repeat split. Qed.

(** ** The loop of [op_whitelist_contains] *)

Lemma among_In (l : list string_view) (item : string_view) :
  among l item = true <-> In item l.
Proof.
  unfold among. rewrite existsb_exists. split.
  - intros (seg & Hin & Heq). apply compare_eqb in Heq. now subst.
  - intros Hin. exists item. split; [exact Hin | now apply compare_eqb].
Qed.

(** Entered just after the prefix [done], with more fuel than [todo] has
    characters, the loop returns whether [item] is a segment of [todo]. *)
Lemma whitelist_loop_segments (fuel : nat) :
  forall (done todo item : string_view),
    fits (done ++ todo) ->
    (List.length todo < fuel)%nat ->
    whitelist_loop fuel (done ++ todo) item (size done)
    = Returns (among (segments todo) item).
Proof.
  induction fuel as [| fuel IH]; intros done todo item Hfits Hfuel; [lia |].
  cbn [whitelist_loop].
  destruct (N.leb_spec (size done) (size (done ++ todo))) as [_ | Hgt];
    [| rewrite size_app in Hgt; lia].
  unfold segments.
  destruct (first_occurrence ";" todo) as [Hno | (seg & rest & -> & Hseg)].
  - rewrite find_char_absent by exact Hno.
    rewrite N.eqb_refl. cbn [negb].
    rewrite substr_rest by exact Hfits. cbn [bind].
    rewrite split_on_absent by exact Hno. unfold among. cbn [existsb].
    rewrite orb_false_r. now destruct (compare todo item =? 0)%Z.
  - rewrite find_char_first by exact Hseg.
    assert (Hlt : size done + size seg < npos).
    { unfold fits in Hfits. rewrite !size_app, size_cons in Hfits. lia. }
    destruct (N.eqb_spec (size done + size seg) npos) as [E | _]; [lia |].
    cbn [negb].
    rewrite sub_no_wrap by lia.
    replace (size done + size seg - size done) with (size seg) by lia.
    rewrite substr_segment. cbn [bind].
    rewrite split_on_first by exact Hseg. unfold among. cbn [existsb].
    destruct (compare seg item =? 0)%Z; [reflexivity |]. cbn [orb].
    rewrite incr_no_wrap by exact Hlt.
    replace (done ++ seg ++ ";"%char :: rest)
      with ((done ++ seg ++ [";"%char]) ++ rest)
      by (now rewrite <- !app_assoc).
    replace (size done + size seg + 1)
      with (size (done ++ seg ++ [";"%char]))
      by (rewrite !size_app; unfold size; simpl; lia).
    apply IH.
    + now rewrite <- !app_assoc.
    + rewrite length_app in Hfuel. simpl in Hfuel. lia.
Qed.

Lemma op_whitelist_contains_segments (L t : string_view) :
  fits L -> op_whitelist_contains L t = Returns (among (segments L) t).
Proof.
  intros Hfits. unfold op_whitelist_contains.
  apply (whitelist_loop_segments (S (List.length L)) [] L t); simpl; [exact Hfits | lia].
Qed.

(** C1: for every delimiter-joined list [L] (a view, so of a size that is a
    [size_t]) and every token [t], [op_whitelist_contains L t] returns, and
    returns true exactly when [t] is byte-for-byte one of the [;]-separated
    segments of [L], empty segments included; the five examples of the
    specification evaluate as it says. *)
Theorem op_whitelist_contains_iff_segment :
  (forall L t : string_view,
      fits L ->
      exists b, op_whitelist_contains L t = Returns b
                /\ (b = true <-> In t (segments L)))
  /\ op_whitelist_contains "a;bc;d" "bc" = Returns true
  /\ op_whitelist_contains "a;bc;d" "b" = Returns false
  /\ op_whitelist_contains "" "" = Returns true
  /\ op_whitelist_contains ";;" "" = Returns true
  /\ op_whitelist_contains "a;bc;d" "d" = Returns true.
Proof.
  split.
  - intros L t Hfits. exists (among (segments L) t). split.
    + now apply op_whitelist_contains_segments.
    + apply among_In.
  - repeat split; vm_compute; reflexivity.
Qed.

Lemma op_whitelist_contains_iff_segment_witness :
  fits "x;;yz;"
  /\ exists b, op_whitelist_contains "x;;yz;" "" = Returns b
               /\ (b = true <-> In ([] : string_view) (segments "x;;yz;")).
Proof.
  split.
  - vm_compute. discriminate.
  - apply (proj1 op_whitelist_contains_iff_segment). vm_compute. discriminate.
Defined.

(** ** [find] of a pattern *)

Lemma occurs_in_tail (v s : string_view) (x : ascii) :
  occurs_in v s -> occurs_in v (x :: s).
Proof. intros (a & b & ->). now exists (x :: a), b. Qed.

Lemma find_from_absent (v s : string_view) (cur : size_t) :
  ~ occurs_in v s -> find_from v s cur = npos.
Proof.
  revert cur. induction s as [| x s IH]; intros cur Hno; simpl.
  - destruct (starts_with v []) eqn:E; [| reflexivity].
    exfalso. apply Hno. apply starts_with_iff in E as [b Hb].
    now exists [], b.
  - destruct (starts_with v (x :: s)) eqn:E.
    + exfalso. apply Hno. apply starts_with_iff in E as [b Hb].
      now exists [], b.
    + apply IH. intros H. apply Hno. now apply occurs_in_tail.
Qed.

(** A pattern that occurs is found, with room for it before the end. *)
Lemma find_from_present (v s : string_view) (cur : size_t) :
  occurs_in v s ->
  exists k, find_from v s cur = cur + k /\ k + size v <= size s.
Proof.
  intros (a & b & ->). revert cur.
  induction a as [| x a IH]; intros cur.
  - exists 0. split.
    + destruct (v ++ b) as [| y r] eqn:E; simpl;
        (replace (starts_with v _) with true;
         [lia | symmetry; apply starts_with_iff; exists b; now rewrite E]).
    + simpl app. rewrite size_app. lia.
  - simpl app. cbn [find_from].
    destruct (starts_with v (x :: a ++ v ++ b)) eqn:E.
    + exists 0. split; [lia |].
      apply starts_with_iff in E as [t Ht]. rewrite Ht, size_app. lia.
    + destruct (IH (cur + 1)) as (k & Hk & Hle).
      exists (k + 1). rewrite Hk, size_cons. split; lia.
Qed.

Lemma find_absent (s v : string_view) :
  ~ occurs_in v s -> find s v 0 = npos.
Proof.
  intros Hno. unfold find.
  destruct (N.leb_spec 0 (size s)); [| reflexivity].
  now apply find_from_absent.
Qed.

Lemma find_present (s v : string_view) :
  occurs_in v s -> v <> [] -> fits s -> find s v 0 <> npos.
Proof.
  intros Hocc Hv Hfits. unfold find.
  destruct (N.leb_spec 0 (size s)); [| lia]. cbn [N.to_nat skipn].
  destruct (find_from_present v s 0 Hocc) as (k & -> & Hk).
  assert (0 < size v) by (destruct v; [congruence | rewrite size_cons; lia]).
  unfold fits in Hfits. lia.
Qed.

Lemma before_first_absent (c : ascii) (s : string_view) :
  ~ In c s -> before_first c s = s.
Proof.
  induction s as [| x s IH]; intros Hno; simpl; [reflexivity |].
  destruct (Ascii.eqb_spec x c) as [-> | _].
  - exfalso. apply Hno. now left.
  - f_equal. apply IH. intros H. apply Hno. now right.
Qed.

Lemma before_first_first (c : ascii) (pre post : string_view) :
  ~ In c pre -> before_first c (pre ++ c :: post) = pre.
Proof.
  induction pre as [| x pre IH]; intros Hno; simpl.
  - now rewrite Ascii.eqb_refl.
  - destruct (Ascii.eqb_spec x c) as [-> | _].
    + exfalso. apply Hno. now left.
    + f_equal. apply IH. intros H. apply Hno. now right.
Qed.

Lemma before_first_app (c : ascii) (q r : string_view) :
  before_first c (q ++ c :: r) = before_first c q.
Proof.
  induction q as [| x q IH]; simpl.
  - now rewrite Ascii.eqb_refl.
  - destruct (Ascii.eqb x c); [reflexivity | now rewrite IH].
Qed.

(** The same facts at the start of the view. *)
Lemma find_char_absent_0 (s : string_view) (c : ascii) :
  ~ In c s -> find_char s c 0 = npos.
Proof. exact (find_char_absent [] s c). Qed.

Lemma find_char_first_0 (pre post : string_view) (c : ascii) :
  ~ In c pre -> find_char (pre ++ c :: post) c 0 = size pre.
Proof. exact (find_char_first [] pre post c). Qed.

Lemma substr_whole (s : string_view) :
  fits s -> substr s 0 npos = Returns s.
Proof. exact (substr_rest [] s). Qed.

Lemma substr_prefix (pre b : string_view) :
  substr (pre ++ b) 0 (size pre) = Returns pre.
Proof. exact (substr_segment [] pre b). Qed.

(** [s.substr(0, s.find(c))] is the text before the first [c], all of [s]
    when there is none. *)
Lemma substr_find_char (s : string_view) (c : ascii) :
  fits s ->
  substr s 0 (find_char s c 0) = Returns (before_first c s).
Proof.
  intros Hfits.
  destruct (first_occurrence c s) as [Hno | (pre & post & -> & Hpre)].
  - rewrite find_char_absent_0 by exact Hno.
    rewrite substr_whole by exact Hfits. now rewrite before_first_absent.
  - rewrite find_char_first_0 by exact Hpre.
    rewrite before_first_first by exact Hpre.
    apply substr_prefix.
Qed.

(** ** [OperatorNameView::parse] *)

Lemma parse_name (full_name : string_view) :
  fits full_name ->
  exists view, OperatorNameView_parse full_name = Returns view
               /\ name view = before_first "." full_name.
Proof.
  intros Hfits. unfold OperatorNameView_parse.
  destruct (first_occurrence "." full_name)
    as [Hno | (pre & post & -> & Hpre)].
  - rewrite find_char_absent_0 by exact Hno. rewrite N.eqb_refl.
    eexists. split; [reflexivity |]. simpl.
    now rewrite before_first_absent.
  - rewrite find_char_first_0 by exact Hpre.
    assert (Hlt : size pre < npos).
    { unfold fits in Hfits. rewrite size_app, size_cons in Hfits. lia. }
    destruct (N.eqb_spec (size pre) npos) as [E | _]; [lia |].
    rewrite substr_prefix. cbn [bind].
    rewrite incr_no_wrap by exact Hlt.
    rewrite substr_in_range by (rewrite size_app, size_cons; lia).
    cbn [bind]. eexists. split; [reflexivity |]. simpl.
    now rewrite before_first_first.
Qed.

(** ** [op_whitelist_check] of a name *)

Lemma op_whitelist_check_outcome (cfg : BuildConfig) (op_name : string_view) :
  fits op_name ->
  op_whitelist_check cfg op_name =
    match TORCH_OPERATOR_WHITELIST cfg with
    | None => Returns true
    | Some whitelist =>
        op_whitelist_contains whitelist (before_first "." op_name)
    end.
Proof.
  intros Hfits. unfold op_whitelist_check.
  destruct (TORCH_OPERATOR_WHITELIST cfg) as [whitelist |]; [| reflexivity].
  destruct (parse_name op_name Hfits) as (view & -> & <-). reflexivity.
Qed.

(** With the empty whitelist a name that starts with [.] has the empty base
    name, which is the one segment of the empty list. *)
Example empty_base_name :
  op_whitelist_check empty_whitelist ".x::y" = Returns true.
Proof. vm_compute. reflexivity. Qed.

(** A name in which [find] sees no separator has none. *)
Lemma malformed_by_find (op_name : string_view) :
  fits op_name -> find op_name "::" 0 = npos -> ~ well_formed op_name.
Proof.
  intros Hfits Hfind Hwf. revert Hfind.
  apply find_present; [exact Hwf | discriminate | exact Hfits].
Qed.

Lemma fits_app_l (s t : string_view) : fits (s ++ t) -> fits s.
Proof. unfold fits. rewrite size_app. lia. Qed.

(** ** More on the loop: what it cannot do, fuel, positions *)

Lemma whitelist_loop_no_assert (fuel : nat) :
  forall (whitelist item : string_view) (cur : size_t),
    whitelist_loop fuel whitelist item cur <> AssertionFailure.
Proof.
  induction fuel as [| fuel IH]; intros whitelist item cur;
    cbn [whitelist_loop]; [discriminate |].
  destruct (cur <=? size whitelist); [| discriminate].
  destruct (negb (find_char whitelist ";" cur =? npos)).
  - unfold substr. destruct (size whitelist <? cur); cbn [bind];
      [discriminate |].
    destruct (compare _ item =? 0)%Z; [discriminate | apply IH].
  - unfold substr. destruct (size whitelist <? cur); cbn [bind];
      [discriminate |].
    destruct (compare _ item =? 0)%Z; discriminate.
Qed.

Lemma split_at (L : string_view) (cur : size_t) :
  cur <= size L -> exists done todo, L = done ++ todo /\ size done = cur.
Proof.
  intros Hle. exists (firstn (N.to_nat cur) L), (skipn (N.to_nat cur) L).
  split; [now rewrite firstn_skipn |].
  unfold size in *. rewrite length_firstn. lia.
Qed.

(** C2: when [TORCH_OPERATOR_WHITELIST] is not defined, [op_whitelist_check]
    returns true for every well-formed qualified operator name, that is
    every name that contains [::]. *)
Theorem op_whitelist_check_unrestricted :
  forall (cfg : BuildConfig) (op_name : string_view),
    TORCH_OPERATOR_WHITELIST cfg = None ->
    well_formed op_name -> fits op_name ->
    op_whitelist_check cfg op_name = Returns true.
Proof.
  intros cfg op_name Hnone Hwf Hfits.
  rewrite op_whitelist_check_outcome by assumption.
  now rewrite Hnone.
Qed.

Lemma op_whitelist_check_unrestricted_witness :
  well_formed "aten::add.Tensor"
  /\ op_whitelist_check unrestricted "aten::add.Tensor" = Returns true.
Proof.
  assert (Hwf : well_formed "aten::add.Tensor").
  { exists ("aten" : string_view), ("add.Tensor" : string_view). reflexivity. }
  split; [exact Hwf |].
  apply op_whitelist_check_unrestricted;
    [reflexivity | exact Hwf | vm_compute; discriminate].
Defined.

Lemma schema_whitelist_check_before_paren (cfg : BuildConfig) (schema : string_view) :
  TORCH_FORCE_SCHEMA_REGISTRATION cfg = false -> fits schema ->
  schema_whitelist_check cfg schema
  = op_whitelist_check cfg (before_first "(" schema).
Proof.
  intros Hforce Hfits. unfold schema_whitelist_check. rewrite Hforce.
  change (find schema "(" 0) with (find_char schema "(" 0).
  now rewrite substr_find_char.
Qed.

(** C3: with the schema-registration override off, [schema_whitelist_check]
    of a schema is [op_whitelist_check] of its text before the first [(],
    and of the whole schema when it has no [(]; under the allow-list
    [aten::add] the schema of [aten::add.Tensor] is admitted, under
    [aten::sub] it is not. *)
Theorem schema_whitelist_check_prefix :
  (forall (cfg : BuildConfig) (pre post : string_view),
      TORCH_FORCE_SCHEMA_REGISTRATION cfg = false ->
      ~ In "("%char pre -> fits (pre ++ "("%char :: post) ->
      schema_whitelist_check cfg (pre ++ "("%char :: post)
      = op_whitelist_check cfg pre)
  /\ (forall (cfg : BuildConfig) (schema : string_view),
      TORCH_FORCE_SCHEMA_REGISTRATION cfg = false ->
      ~ In "("%char schema -> fits schema ->
      schema_whitelist_check cfg schema = op_whitelist_check cfg schema)
  /\ schema_whitelist_check (restricted "aten::add")
       "aten::add.Tensor(Tensor self, Tensor other) -> Tensor" = Returns true
  /\ schema_whitelist_check (restricted "aten::sub")
       "aten::add.Tensor(Tensor self, Tensor other) -> Tensor" = Returns false.
Proof.
  split; [| split; [| split; vm_compute; reflexivity]].
  - intros cfg pre post Hforce Hpre Hfits.
    rewrite schema_whitelist_check_before_paren by assumption.
    now rewrite before_first_first.
  - intros cfg schema Hforce Hno Hfits.
    rewrite schema_whitelist_check_before_paren by assumption.
    now rewrite before_first_absent.
Qed.

Lemma schema_whitelist_check_prefix_witness :
  schema_whitelist_check (restricted "aten::mul;aten::add")
    ("aten::add.out" ++ "("%char :: "Tensor a) -> Tensor")
  = op_whitelist_check (restricted "aten::mul;aten::add") "aten::add.out"
  /\ schema_whitelist_check (restricted "aten::mul;aten::add") "aten::mul"
     = op_whitelist_check (restricted "aten::mul;aten::add") "aten::mul".
Proof.
  split.
  - apply (proj1 schema_whitelist_check_prefix).
    + reflexivity.
    + vm_compute. intuition discriminate.
    + vm_compute. discriminate.
  - apply (proj1 (proj2 schema_whitelist_check_prefix)).
    + reflexivity.
    + vm_compute. intuition discriminate.
    + vm_compute. discriminate.
Defined.

(** C4: for every qualified name [ns::base.overload] and every
    configuration, [op_whitelist_check] of the name equals
    [op_whitelist_check] of [ns::base]; and under a configured allow-list
    the check of a well-formed name is the membership test of its text
    before the first [.], whatever follows that [.]. *)
Theorem op_whitelist_check_ignores_overload :
  (forall (cfg : BuildConfig) (ns base overload : string_view),
      fits (ns ++ "::" ++ base ++ "." ++ overload) ->
      op_whitelist_check cfg (ns ++ "::" ++ base ++ "." ++ overload)
      = op_whitelist_check cfg (ns ++ "::" ++ base))
  /\ (forall (cfg : BuildConfig) (whitelist pre post : string_view),
      TORCH_OPERATOR_WHITELIST cfg = Some whitelist ->
      ~ In "."%char pre ->
      well_formed (pre ++ "."%char :: post) ->
      fits (pre ++ "."%char :: post) ->
      op_whitelist_check cfg (pre ++ "."%char :: post)
      = op_whitelist_contains whitelist pre).
Proof.
  split.
  - intros cfg ns base overload Hfits.
    replace (ns ++ "::" ++ base ++ "." ++ overload)
      with ((ns ++ "::" ++ base) ++ "."%char :: overload) in *
      by (now rewrite <- !app_assoc).
    rewrite !op_whitelist_check_outcome.
    + now rewrite before_first_app.
    + exact (fits_app_l _ _ Hfits).
    + exact Hfits.
  - intros cfg whitelist pre post Hcfg Hpre Hwf Hfits.
    rewrite op_whitelist_check_outcome by assumption.
    now rewrite Hcfg, before_first_first.
Qed.

Lemma op_whitelist_check_ignores_overload_witness :
  op_whitelist_check (restricted "aten::add;aten::sub")
    ("aten" ++ "::" ++ "sub" ++ "." ++ "Scalar")
  = op_whitelist_check (restricted "aten::add;aten::sub")
      ("aten" ++ "::" ++ "sub")
  /\ op_whitelist_check (restricted "aten::add;aten::sub")
       ("aten::sub" ++ "."%char :: "Scalar")
     = op_whitelist_contains "aten::add;aten::sub" "aten::sub".
Proof.
  split.
  - apply (proj1 op_whitelist_check_ignores_overload).
    vm_compute. discriminate.
  - apply (proj2 op_whitelist_check_ignores_overload).
    + reflexivity.
    + vm_compute. intuition discriminate.
    + exists ("aten" : string_view), ("sub.Scalar" : string_view). reflexivity.
    + vm_compute. discriminate.
Defined.

(** C5: the assertion of line 55 is not in force.  A name without [::],
    such as [add], does not stop the evaluation: [op_whitelist_check]
    returns a boolean for it, true with no whitelist or with a whitelist
    that has the entry [add], false otherwise; and no evaluation of
    [op_whitelist_check], on any name under any configuration, ends in an
    assertion failure. *)
Theorem op_whitelist_check_assertion_not_in_force :
  ~ well_formed "add"
  /\ op_whitelist_check unrestricted "add" = Returns true
  /\ op_whitelist_check (restricted "add;aten::sub") "add" = Returns true
  /\ op_whitelist_check (restricted "aten::add") "add" = Returns false
  /\ (forall (cfg : BuildConfig) (op_name : string_view),
      op_whitelist_check cfg op_name <> AssertionFailure).
Proof.
  split; [| split; [| split; [| split]]]; try (vm_compute; reflexivity).
  - apply malformed_by_find; [vm_compute; discriminate | reflexivity].
  - intros cfg op_name. unfold op_whitelist_check.
    destruct (TORCH_OPERATOR_WHITELIST cfg) as [whitelist |];
      [| discriminate].
    unfold OperatorNameView_parse.
    destruct (find_char op_name "." 0 =? npos); cbn [bind].
    + apply whitelist_loop_no_assert.
    + unfold substr.
      destruct (size op_name <? 0); cbn [bind]; [discriminate |].
      destruct (size op_name <? _); cbn [bind]; [discriminate |].
      apply whitelist_loop_no_assert.
Qed.

Lemma DispatchKey_eqb_eq (a b : DispatchKey) :
  DispatchKey_eqb a b = true <-> a = b.
Proof.
  destruct a, b; simpl; try (split; [discriminate | discriminate]);
    try (split; reflexivity).
  rewrite N.eqb_eq. split; [now intros -> | now intros [= ->]].
Qed.

(** C6: under [C10_MOBILE], [dispatch_key_whitelist_check] is true for the
    five keys CPU, Vulkan, QuantizedCPU, BackendSelect and CatchAll, five
    different keys, and false for every other key, CUDA among them; without
    [C10_MOBILE] it is true for every key. *)
Theorem dispatch_key_whitelist_check_mobile :
  (forall (cfg : BuildConfig) (k : DispatchKey),
      C10_MOBILE cfg = true ->
      (dispatch_key_whitelist_check cfg k = true <-> In k mobile_keys)
      /\ (~ In k mobile_keys -> dispatch_key_whitelist_check cfg k = false)
      /\ dispatch_key_whitelist_check cfg CUDA = false)
  /\ NoDup mobile_keys /\ List.length mobile_keys = 5%nat
  /\ (forall (cfg : BuildConfig) (k : DispatchKey),
      C10_MOBILE cfg = false -> dispatch_key_whitelist_check cfg k = true).
Proof.
  assert (Hiff : forall cfg k, C10_MOBILE cfg = true ->
            (dispatch_key_whitelist_check cfg k = true <-> In k mobile_keys)).
  { intros cfg k Hm. unfold dispatch_key_whitelist_check, mobile_keys.
    rewrite Hm, !orb_true_iff, !DispatchKey_eqb_eq. simpl.
    intuition congruence. }
  split; [| split; [| split]].
  - intros cfg k Hm. split; [now apply Hiff | split].
    + intros Hout. apply not_true_is_false. intros H. apply Hout.
      now apply (Hiff cfg k Hm).
    + unfold dispatch_key_whitelist_check. now rewrite Hm.
  - unfold mobile_keys.
    repeat (constructor; [simpl; intuition discriminate |]). constructor.
  - reflexivity.
  - intros cfg k Hm. unfold dispatch_key_whitelist_check. now rewrite Hm.
Qed.

Lemma dispatch_key_whitelist_check_mobile_witness :
  dispatch_key_whitelist_check mobile Vulkan = true
  /\ dispatch_key_whitelist_check mobile (OtherKey 7) = false
  /\ dispatch_key_whitelist_check unrestricted CUDA = true.
Proof.
  split; [| split].
  - destruct (proj1 dispatch_key_whitelist_check_mobile mobile Vulkan eq_refl)
      as (Hiff & _ & _).
    apply Hiff. simpl. tauto.
  - destruct (proj1 dispatch_key_whitelist_check_mobile mobile (OtherKey 7) eq_refl)
      as (_ & Hout & _).
    apply Hout. simpl. intuition discriminate.
  - apply (proj2 (proj2 (proj2 dispatch_key_whitelist_check_mobile))).
    reflexivity.
Defined.

(** C7: when [TORCH_FORCE_SCHEMA_REGISTRATION] is defined,
    [schema_whitelist_check] returns true for every schema string, whatever
    the operator allow-list. *)
Theorem schema_whitelist_check_forced :
  forall (cfg : BuildConfig) (schema : string_view),
    TORCH_FORCE_SCHEMA_REGISTRATION cfg = true ->
    schema_whitelist_check cfg schema = Returns true.
Proof.
  intros cfg schema Hforce. unfold schema_whitelist_check.
  now rewrite Hforce.
Qed.

Lemma schema_whitelist_check_forced_witness :
  schema_whitelist_check
    {| TORCH_OPERATOR_WHITELIST := Some ("aten::sub" : string_view);
       TORCH_FORCE_SCHEMA_REGISTRATION := true;
       C10_MOBILE := false |}
    "aten::add.Tensor(Tensor self, Tensor other) -> Tensor" = Returns true.
Proof. apply schema_whitelist_check_forced. reflexivity. Defined.

(** Where the loop goes on, it goes on at a later position of the view. *)
Lemma next_position (whitelist : string_view) (cur : size_t) :
  fits whitelist -> cur <= size whitelist ->
  find_char whitelist ";" cur <> npos ->
  cur <= find_char whitelist ";" cur
  /\ SizeT.incr (find_char whitelist ";" cur) = find_char whitelist ";" cur + 1
  /\ find_char whitelist ";" cur < size whitelist.
Proof.
  intros Hfits Hcur Hfound.
  destruct (split_at whitelist cur Hcur) as (done & todo & -> & <-).
  destruct (first_occurrence ";" todo) as [Hno | (seg & rest & -> & Hseg)].
  - now rewrite find_char_absent in Hfound.
  - rewrite find_char_first in * by exact Hseg.
    unfold fits in Hfits. rewrite !size_app, size_cons in *.
    rewrite incr_no_wrap by lia. lia.
Qed.

(** C9: [op_whitelist_contains] terminates on every whitelist view and
    every item.  Where an iteration at [cur] finds a delimiter, the position
    just past it is greater than [cur] and within the view, so the next
    iteration starts strictly later; otherwise the loop ends after the last
    segment.  One iteration more than the characters left is always enough,
    from every position. *)
Theorem op_whitelist_contains_terminates :
  (forall whitelist item : string_view,
      fits whitelist ->
      exists b, op_whitelist_contains whitelist item = Returns b)
  /\ (forall (whitelist : string_view) (cur : size_t),
      fits whitelist -> cur <= size whitelist ->
      find_char whitelist ";" cur <> npos ->
      cur < SizeT.incr (find_char whitelist ";" cur)
      /\ SizeT.incr (find_char whitelist ";" cur) <= size whitelist)
  /\ (forall (fuel : nat) (whitelist item : string_view) (cur : size_t),
      fits whitelist -> cur <= size whitelist ->
      (N.to_nat (size whitelist - cur) < fuel)%nat ->
      exists b, whitelist_loop fuel whitelist item cur = Returns b).
Proof.
  split; [| split].
  - intros whitelist item Hfits.
    rewrite op_whitelist_contains_segments by exact Hfits. now eexists.
  - intros whitelist cur Hfits Hcur Hfound.
    destruct (next_position whitelist cur Hfits Hcur Hfound) as (H1 & -> & H2).
    lia.
  - intros fuel whitelist item cur Hfits Hcur Hfuel.
    destruct (split_at whitelist cur Hcur) as (done & todo & -> & <-).
    rewrite whitelist_loop_segments; [now eexists | exact Hfits |].
    rewrite size_app in Hfuel. unfold size in Hfuel. lia.
Qed.

Lemma op_whitelist_contains_terminates_witness :
  (exists b, op_whitelist_contains "a;bc;d" "zz" = Returns b)
  /\ (2 < SizeT.incr (find_char "a;bc;d" ";" 2)
      /\ SizeT.incr (find_char "a;bc;d" ";" 2) <= size "a;bc;d")
  /\ (exists b, whitelist_loop 5 "a;bc;d" "zz" 2 = Returns b).
Proof.
  split; [| split].
  - apply (proj1 op_whitelist_contains_terminates). vm_compute. discriminate.
  - apply (proj1 (proj2 op_whitelist_contains_terminates));
      vm_compute; discriminate.
  - apply (proj2 (proj2 op_whitelist_contains_terminates));
      [vm_compute; discriminate | vm_compute; discriminate | vm_compute; lia].
Defined.

(** C10: with the allow-list defined as the empty string,
    [op_whitelist_check] returns false for every well-formed operator name
    whose text before the first [.] is not empty, and admits no name with
    such a base at all; [op_whitelist_contains] of the empty list returns,
    and returns true for the empty token only.  With no allow-list defined
    the same names are admitted. *)
Theorem op_whitelist_check_empty_whitelist :
  (forall (cfg : BuildConfig) (op_name : string_view),
      TORCH_OPERATOR_WHITELIST cfg = Some ("" : string_view) ->
      well_formed op_name -> fits op_name ->
      before_first "." op_name <> [] ->
      op_whitelist_check cfg op_name = Returns false)
  /\ (forall (cfg : BuildConfig) (op_name : string_view),
      TORCH_OPERATOR_WHITELIST cfg = Some ("" : string_view) ->
      fits op_name ->
      before_first "." op_name <> [] ->
      op_whitelist_check cfg op_name <> Returns true)
  /\ (forall t : string_view,
      (exists b, op_whitelist_contains "" t = Returns b)
      /\ (op_whitelist_contains "" t = Returns true <-> t = []))
  /\ (forall (cfg : BuildConfig) (op_name : string_view),
      TORCH_OPERATOR_WHITELIST cfg = None ->
      well_formed op_name -> fits op_name ->
      op_whitelist_check cfg op_name = Returns true).
Proof.
  assert (Hempty : forall t : string_view,
             op_whitelist_contains "" t
             = Returns (match t with [] => true | _ :: _ => false end)).
  { intros t. now destruct t. }
  split; [| split; [| split]].
  - intros cfg op_name Hcfg Hwf Hfits Hbase.
    rewrite op_whitelist_check_outcome by assumption.
    rewrite Hcfg, Hempty.
    destruct (before_first "." op_name); [congruence | reflexivity].
  - intros cfg op_name Hcfg Hfits Hbase.
    rewrite op_whitelist_check_outcome by assumption.
    rewrite Hcfg, Hempty.
    destruct (before_first "." op_name); [congruence | discriminate].
  - intros t. rewrite Hempty. split; [now eexists |].
    destruct t; split; try reflexivity; discriminate.
  - intros cfg op_name Hnone Hwf Hfits.
    rewrite op_whitelist_check_outcome by assumption.
    now rewrite Hnone.
Qed.

Lemma op_whitelist_check_empty_whitelist_witness :
  op_whitelist_check empty_whitelist "aten::add.Tensor" = Returns false
  /\ op_whitelist_check empty_whitelist "add" <> Returns true
  /\ op_whitelist_check unrestricted "aten::add.Tensor" = Returns true.
Proof.
  assert (Hwf : well_formed "aten::add.Tensor").
  { exists ("aten" : string_view), ("add.Tensor" : string_view). reflexivity. }
  split; [| split].
  - apply (proj1 op_whitelist_check_empty_whitelist);
      [reflexivity | exact Hwf | vm_compute; discriminate
      | vm_compute; discriminate].
  - apply (proj1 (proj2 op_whitelist_check_empty_whitelist));
      [reflexivity | vm_compute; discriminate | vm_compute; discriminate].
  - apply (proj2 (proj2 (proj2 op_whitelist_check_empty_whitelist)));
      [reflexivity | exact Hwf | vm_compute; discriminate].
Defined.

(** ** Further properties of the checks *)

Lemma whitelist_loop_no_throw (fuel : nat) :
  forall (whitelist item : string_view) (cur : size_t),
    whitelist_loop fuel whitelist item cur <> OutOfRange.
Proof.
  induction fuel as [| fuel IH]; intros whitelist item cur;
    cbn [whitelist_loop]; [discriminate |].
  destruct (N.leb_spec cur (size whitelist)) as [Hle | _]; [| discriminate].
  destruct (negb (find_char whitelist ";" cur =? npos));
    rewrite substr_in_range by exact Hle; cbn [bind];
    destruct (compare _ item =? 0)%Z; try discriminate.
  apply IH.
Qed.

(** The guard [cur <= whitelist.size()] keeps both calls of [substr] in
    range: whatever the two strings, whatever the position the loop is
    entered at and however many iterations it is given, the loop never
    throws and fails no assertion; so [op_whitelist_contains] only ever
    returns a boolean or is still running. *)
Theorem op_whitelist_contains_never_throws :
  (forall (fuel : nat) (whitelist item : string_view) (cur : size_t),
      whitelist_loop fuel whitelist item cur <> OutOfRange
      /\ whitelist_loop fuel whitelist item cur <> AssertionFailure)
  /\ (forall whitelist item : string_view,
      op_whitelist_contains whitelist item = OutOfFuel
      \/ exists b, op_whitelist_contains whitelist item = Returns b).
Proof.
  split.
  - intros fuel whitelist item cur. split.
    + apply whitelist_loop_no_throw.
    + apply whitelist_loop_no_assert.
  - intros whitelist item. unfold op_whitelist_contains.
    pose proof (whitelist_loop_no_throw (S (List.length whitelist))
                  whitelist item 0) as Hthrow.
    pose proof (whitelist_loop_no_assert (S (List.length whitelist))
                  whitelist item 0) as Hassert.
    destruct (whitelist_loop _ whitelist item 0) as [b | | |];
      [right; now exists b | congruence | congruence | now left].
Qed.

Lemma split_on_app (d : ascii) (A B : string_view) :
  split_on d (A ++ d :: B) = split_on d A ++ split_on d B.
Proof.
  induction A as [| x A IH]; simpl.
  - now rewrite Ascii.eqb_refl.
  - destruct (Ascii.eqb x d); rewrite IH; [reflexivity |].
    pose proof (split_on_nonempty d A) as Hne.
    destruct (split_on d A) as [| seg rest]; [congruence | reflexivity].
Qed.

Lemma among_app (l l' : list string_view) (item : string_view) :
  among (l ++ l') item = among l item || among l' item.
Proof. unfold among. apply existsb_app. Qed.

Lemma fits_app_r (s t : string_view) : fits (s ++ t) -> fits t.
Proof. unfold fits. rewrite size_app. lia. Qed.

Lemma fits_cons (c : ascii) (s : string_view) : fits (c :: s) -> fits s.
Proof. unfold fits. rewrite size_cons. lia. Qed.

(** Two whitelists joined by [;] admit what either admits: the membership
    test of the joined list is the disjunction of the two tests, and the
    order of the two parts does not matter. *)
Theorem op_whitelist_contains_join :
  forall A B t : string_view,
    fits (A ++ ";"%char :: B) ->
    (exists a b,
        op_whitelist_contains A t = Returns a
        /\ op_whitelist_contains B t = Returns b
        /\ op_whitelist_contains (A ++ ";"%char :: B) t = Returns (a || b))
    /\ op_whitelist_contains (A ++ ";"%char :: B) t
       = op_whitelist_contains (B ++ ";"%char :: A) t.
Proof.
  intros A B t Hfits.
  assert (HA : fits A) by exact (fits_app_l _ _ Hfits).
  assert (HB : fits B) by exact (fits_cons _ _ (fits_app_r _ _ Hfits)).
  assert (Hswap : fits (B ++ ";"%char :: A)).
  { unfold fits in *. rewrite size_app, size_cons in *. lia. }
  rewrite !op_whitelist_contains_segments by assumption.
  unfold segments. rewrite !split_on_app, !among_app. split.
  - now exists (among (split_on ";" A) t), (among (split_on ";" B) t).
  - now rewrite orb_comm.
Qed.

Lemma op_whitelist_contains_join_witness :
  op_whitelist_contains ("aten::add" ++ ";"%char :: "aten::sub;aten::mul")
    "aten::sub"
  = op_whitelist_contains ("aten::sub;aten::mul" ++ ";"%char :: "aten::add")
      "aten::sub".
Proof.
  apply (op_whitelist_contains_join "aten::add" "aten::sub;aten::mul").
  vm_compute. discriminate.
Defined.

Lemma split_on_join (d : ascii) (tokens : list string_view) :
  tokens <> [] ->
  Forall (fun token => ~ In d token) tokens ->
  split_on d (join_with d tokens) = tokens.
Proof.
  induction tokens as [| token rest IH]; intros Hne Hall; [congruence |].
  inversion Hall as [| ? ? Htoken Hrest]; subst.
  destruct rest as [| token' rest].
  - simpl. now apply split_on_absent.
  - cbn [join_with]. rewrite split_on_first by exact Htoken.
    f_equal. apply IH; [discriminate | exact Hrest].
Qed.

(** A whitelist written as tokens joined by [;], at least one token and no
    [;] inside a token, contains exactly those tokens. *)
Theorem op_whitelist_contains_joined_tokens :
  forall (tokens : list string_view) (t : string_view),
    tokens <> [] ->
    Forall (fun token => ~ In ";"%char token) tokens ->
    fits (join_with ";" tokens) ->
    exists b, op_whitelist_contains (join_with ";" tokens) t = Returns b
              /\ (b = true <-> In t tokens).
Proof.
  intros tokens t Hne Hall Hfits.
  rewrite op_whitelist_contains_segments by exact Hfits.
  unfold segments. rewrite split_on_join by assumption.
  eexists. split; [reflexivity | apply among_In].
Qed.

Lemma op_whitelist_contains_joined_tokens_witness :
  exists b,
    op_whitelist_contains
      (join_with ";" ["aten::add" : string_view; "aten::sub" : string_view])
      "aten::sub" = Returns b
    /\ (b = true
        <-> In ("aten::sub" : string_view)
              ["aten::add" : string_view; "aten::sub" : string_view]).
Proof.
  apply op_whitelist_contains_joined_tokens.
  - discriminate.
  - repeat constructor; vm_compute; intuition discriminate.
  - vm_compute. discriminate.
Defined.

(** An item with a [;] in it is in no whitelist: the delimiter cannot be
    part of an entry. *)
Theorem op_whitelist_contains_rejects_delimiter :
  forall L t : string_view,
    fits L -> In ";"%char t -> op_whitelist_contains L t = Returns false.
Proof.
  intros L t Hfits Hin.
  rewrite op_whitelist_contains_segments by exact Hfits. f_equal.
  apply not_true_is_false. intros Hamong. apply among_In in Hamong.
  pose proof (split_on_pieces ";" L) as Hall.
  rewrite Forall_forall in Hall. exact (Hall t Hamong Hin).
Qed.

Lemma op_whitelist_contains_rejects_delimiter_witness :
  op_whitelist_contains "a;bc;d" "a;bc" = Returns false.
Proof.
  apply op_whitelist_contains_rejects_delimiter.
  - vm_compute. discriminate.
  - vm_compute. tauto.
Defined.

Lemma iterations_positive (l : list string_view) (item : string_view) :
  l <> [] -> (1 <= iterations l item)%nat.
Proof.
  destruct l as [| seg rest]; [congruence |]. intros _. simpl.
  destruct (compare seg item =? 0)%Z; lia.
Qed.

Lemma iterations_bound (l : list string_view) (item : string_view) :
  (iterations l item <= List.length l)%nat.
Proof.
  induction l as [| seg rest IH]; simpl; [lia |].
  destruct (compare seg item =? 0)%Z; lia.
Qed.

(** Entered just after the prefix [done], the loop makes [iterations] many
    iterations over the segments of [todo], no more and no fewer. *)
Lemma whitelist_loop_iterations (fuel : nat) :
  forall (done todo item : string_view),
    fits (done ++ todo) ->
    whitelist_loop fuel (done ++ todo) item (size done)
    = if (fuel <? iterations (segments todo) item)%nat then OutOfFuel
      else Returns (among (segments todo) item).
Proof.
  induction fuel as [| fuel IH]; intros done todo item Hfits.
  - pose proof (iterations_positive (segments todo) item
                  (split_on_nonempty ";" todo)) as Hpos.
    destruct (Nat.ltb_spec 0 (iterations (segments todo) item)); [| lia].
    reflexivity.
  - cbn [whitelist_loop].
    destruct (N.leb_spec (size done) (size (done ++ todo))) as [_ | Hgt];
      [| rewrite size_app in Hgt; lia].
    unfold segments.
    destruct (first_occurrence ";" todo) as [Hno | (seg & rest & -> & Hseg)].
    + rewrite find_char_absent by exact Hno.
      rewrite N.eqb_refl. cbn [negb].
      rewrite substr_rest by exact Hfits. cbn [bind].
      rewrite split_on_absent by exact Hno.
      unfold among. cbn [existsb iterations].
      now destruct (compare todo item =? 0)%Z.
    + rewrite find_char_first by exact Hseg.
      assert (Hlt : size done + size seg < npos).
      { unfold fits in Hfits. rewrite !size_app, size_cons in Hfits. lia. }
      destruct (N.eqb_spec (size done + size seg) npos) as [E | _]; [lia |].
      cbn [negb].
      rewrite sub_no_wrap by lia.
      replace (size done + size seg - size done) with (size seg) by lia.
      rewrite substr_segment. cbn [bind].
      rewrite split_on_first by exact Hseg.
      unfold among. cbn [existsb iterations].
      destruct (compare seg item =? 0)%Z; [reflexivity |]. cbn [orb].
      rewrite incr_no_wrap by exact Hlt.
      replace (done ++ seg ++ ";"%char :: rest)
        with ((done ++ seg ++ [";"%char]) ++ rest) in *
        by (now rewrite <- !app_assoc).
      replace (size done + size seg + 1)
        with (size (done ++ seg ++ [";"%char]))
        by (rewrite !size_app; unfold size; simpl; lia).
      rewrite (IH _ rest item Hfits).
      change (S fuel <? S (iterations (split_on ";" rest) item))%nat
        with (fuel <? iterations (split_on ";" rest) item)%nat.
      reflexivity.
Qed.

(** The loop looks at the segments from left to right and stops at the
    first one that equals the item: it makes one iteration for each segment
    up to and including that one (one for each segment when there is none),
    returns with that many iterations, and with fewer it has not returned.
    That is never more than the number of segments. *)
Theorem whitelist_loop_stops_at_first_match :
  forall (fuel : nat) (L t : string_view),
    fits L ->
    ((iterations (segments L) t <= fuel)%nat ->
     whitelist_loop fuel L t 0 = Returns (among (segments L) t))
    /\ ((fuel < iterations (segments L) t)%nat ->
        whitelist_loop fuel L t 0 = OutOfFuel)
    /\ (iterations (segments L) t <= List.length (segments L))%nat.
Proof.
  intros fuel L t Hfits.
  pose proof (whitelist_loop_iterations fuel [] L t Hfits) as Hrun.
  cbn [app] in Hrun. change (size []) with 0 in Hrun.
  split; [| split].
  - intros Hle. rewrite Hrun.
    destruct (Nat.ltb_spec fuel (iterations (segments L) t)); [lia |].
    reflexivity.
  - intros Hlt. rewrite Hrun.
    destruct (Nat.ltb_spec fuel (iterations (segments L) t)); [| lia].
    reflexivity.
  - apply iterations_bound.
Qed.

Lemma whitelist_loop_stops_at_first_match_witness :
  whitelist_loop 2 "a;bc;d;e;f" "bc" 0
  = Returns (among (segments "a;bc;d;e;f") "bc")
  /\ whitelist_loop 1 "a;bc;d;e;f" "bc" 0 = OutOfFuel.
Proof.
  split.
  - apply (whitelist_loop_stops_at_first_match 2 "a;bc;d;e;f" "bc");
      [vm_compute; discriminate | vm_compute; lia].
  - apply (whitelist_loop_stops_at_first_match 1 "a;bc;d;e;f" "bc");
      [vm_compute; discriminate | vm_compute; lia].
Defined.

Lemma before_first_free (c : ascii) (s : string_view) :
  ~ In c (before_first c s).
Proof.
  induction s as [| x s IH]; simpl; [tauto |].
  destruct (Ascii.eqb_spec x c) as [-> | Hxc]; simpl; [tauto |].
  intros [H | H]; [now apply Hxc | now apply IH].
Qed.

Lemma fits_before_first (c : ascii) (s : string_view) :
  fits s -> fits (before_first c s).
Proof.
  unfold fits. intros H.
  assert (size (before_first c s) <= size s); [| lia].
  clear H. induction s as [| x s IH]; simpl; [lia |].
  destruct (Ascii.eqb x c); [unfold size; simpl; lia |].
  rewrite !size_cons. lia.
Qed.

(** The outcome of [op_whitelist_check] under a whitelist. *)
Lemma op_whitelist_check_restricted (cfg : BuildConfig)
  (whitelist op_name : string_view) :
  TORCH_OPERATOR_WHITELIST cfg = Some whitelist ->
  fits whitelist -> fits op_name ->
  op_whitelist_check cfg op_name
  = Returns (among (segments whitelist) (before_first "." op_name)).
Proof.
  intros Hcfg Hwl Hfits.
  rewrite op_whitelist_check_outcome by assumption.
  rewrite Hcfg. now apply op_whitelist_contains_segments.
Qed.

(** Under a whitelist [op_whitelist_check] returns a boolean for every
    name, with the separator [::] or without it, and returns true exactly
    when the text of the name before its first [.] is an entry of the
    whitelist. *)
Theorem op_whitelist_check_admits_iff :
  forall (cfg : BuildConfig) (whitelist op_name : string_view),
    TORCH_OPERATOR_WHITELIST cfg = Some whitelist ->
    fits whitelist -> fits op_name ->
    exists b, op_whitelist_check cfg op_name = Returns b
              /\ (b = true
                  <-> In (before_first "." op_name) (segments whitelist)).
Proof.
  intros cfg whitelist op_name Hcfg Hwl Hfits.
  rewrite (op_whitelist_check_restricted cfg whitelist op_name)
    by assumption.
  eexists. split; [reflexivity | apply among_In].
Qed.

Lemma op_whitelist_check_admits_iff_witness :
  exists b,
    op_whitelist_check (restricted "aten::add;aten::sub") "aten::sub.out"
    = Returns b
    /\ (b = true
        <-> In (before_first "." "aten::sub.out")
              (segments "aten::add;aten::sub")).
Proof.
  apply op_whitelist_check_admits_iff;
    [reflexivity | vm_compute; discriminate | vm_compute; discriminate].
Defined.

(** With the override off and under a whitelist, [schema_whitelist_check]
    returns a boolean for every schema, and returns true exactly when the
    text before the first [(], cut again before its first [.], is an entry
    of the whitelist; what the argument list holds plays no part, and a
    name part without [::] is looked up like any other. *)
Theorem schema_whitelist_check_outcome :
  forall (cfg : BuildConfig) (whitelist schema : string_view),
    TORCH_FORCE_SCHEMA_REGISTRATION cfg = false ->
    TORCH_OPERATOR_WHITELIST cfg = Some whitelist ->
    fits whitelist -> fits schema ->
    exists b, schema_whitelist_check cfg schema = Returns b
              /\ (b = true
                  <-> In (before_first "." (before_first "(" schema))
                        (segments whitelist)).
Proof.
  intros cfg whitelist schema Hforce Hcfg Hwl Hfits.
  rewrite schema_whitelist_check_before_paren by assumption.
  pose proof (fits_before_first "(" schema Hfits) as Hpre.
  rewrite (op_whitelist_check_restricted cfg whitelist) by assumption.
  eexists. split; [reflexivity | apply among_In].
Qed.

Lemma schema_whitelist_check_outcome_witness :
  exists b,
    schema_whitelist_check (restricted "aten::add") "add(aten::Tensor x)"
    = Returns b
    /\ (b = true
        <-> In (before_first "." (before_first "(" "add(aten::Tensor x)"))
              (segments "aten::add")).
Proof.
  apply schema_whitelist_check_outcome;
    [reflexivity | reflexivity | vm_compute; discriminate
    | vm_compute; discriminate].
Defined.



(** The whitelist holds operators, not overloads: an entry with a [.] in it
    admits nothing, adding it to a whitelist changes no outcome of
    [op_whitelist_check]. *)
Theorem op_whitelist_check_overload_entry :
  forall (cfg cfg' : BuildConfig) (A entry op_name : string_view),
    TORCH_OPERATOR_WHITELIST cfg = Some A ->
    TORCH_OPERATOR_WHITELIST cfg' = Some (A ++ ";"%char :: entry) ->
    In "."%char entry -> ~ In ";"%char entry ->
    fits (A ++ ";"%char :: entry) -> fits op_name ->
    op_whitelist_check cfg' op_name = op_whitelist_check cfg op_name.
Proof.
  intros cfg cfg' A entry op_name Hcfg Hcfg' Hdot Hsemi Hwl Hfits.
  rewrite (op_whitelist_check_restricted cfg' (A ++ ";"%char :: entry))
    by assumption.
  rewrite (op_whitelist_check_restricted cfg A)
    by (try assumption; exact (fits_app_l _ _ Hwl)).
  unfold segments. rewrite split_on_app, among_app.
  rewrite (split_on_absent ";" entry Hsemi).
  unfold among at 2. cbn [existsb].
  destruct (compare entry (before_first "." op_name) =? 0)%Z eqn:E.
  - apply compare_eqb in E. exfalso.
    apply (before_first_free "." op_name). now rewrite <- E.
  - now rewrite !orb_false_r.
Qed.

Lemma op_whitelist_check_overload_entry_witness :
  op_whitelist_check (restricted ("aten::sub" ++ ";"%char :: "aten::add.Tensor"))
    "aten::add.Tensor"
  = op_whitelist_check (restricted "aten::sub") "aten::add.Tensor".
Proof.
  apply op_whitelist_check_overload_entry with (A := "aten::sub" : string_view)
    (entry := "aten::add.Tensor" : string_view).
  - reflexivity.
  - reflexivity.
  - vm_compute. tauto.
  - vm_compute. intuition discriminate.
  - vm_compute. discriminate.
  - vm_compute. discriminate.
Defined.
